(** * PostManager (src/components/Fetch.tsx): the client state and its handlers

    The component keeps four pieces of React state ([data], [loading],
    [isEditModalVisible], [editingPost]) and two antd form stores, and talks
    to the REST collection through axios promises.  Every handler is embedded
    as a pure function on the state; a handler that issues a request returns,
    next to the new state, the request together with what its [.then] and
    [.catch] callbacks close over.  The callbacks are functions on the state
    at the time the promise settles, which may be later than the state the
    handler saw. *)

From stdpp Require Import base numbers relations list strings.

Open Scope Z_scope.

(** ** Data model *)

(** [interface Post].  The numeric fields hold integer-valued doubles (the
    ids of the collection); they are embedded as the integer in [Z] that
    the double stands for.  Comparison and [Math.max] are exact on doubles;
    addition rounds, see [double_add] below. *)
Record Post := mkPost {
  userId : Z;
  id : Z;
  title : string;
  body : string
}.

(** The argument of [onFinish] and [handleUpdate]:
    [{ title: string; body: string }], the registered fields of a form. *)
Module Values.
Record t := mk { title : string; body : string }.
End Values.

(** What the user is shown: [message.success(content)] toasts and
    [notification.error({message, description})] notifications. *)
Inductive Feedback :=
  | message_success (content : string)
  | notification_error (message description : string).

Record State := mkState {
  data : list Post;
  loading : bool;
  isEditModalVisible : bool;
  editingPost : option Post;
  (* [form]: the fields of the create form *)
  form : Values.t;
  (* [editForm]: the fields of the edit form, [None] until they are set *)
  editForm : option Values.t;
  (* the toasts and notifications shown so far, oldest first *)
  shown : list Feedback
}.

(** [useState] initial values; the create form starts from its
    [initialValues]. *)
Definition initialState : State :=
  {| data := []; loading := false; isEditModalVisible := false;
     editingPost := None; form := Values.mk "" ""; editForm := None;
     shown := [] |}.

(** ** State setters *)

Definition setData (v : list Post) (s : State) : State :=
  mkState v (loading s) (isEditModalVisible s) (editingPost s)
          (form s) (editForm s) (shown s).

Definition setLoading (v : bool) (s : State) : State :=
  mkState (data s) v (isEditModalVisible s) (editingPost s)
          (form s) (editForm s) (shown s).

Definition setIsEditModalVisible (v : bool) (s : State) : State :=
  mkState (data s) (loading s) v (editingPost s)
          (form s) (editForm s) (shown s).

Definition setEditingPost (v : option Post) (s : State) : State :=
  mkState (data s) (loading s) (isEditModalVisible s) v
          (form s) (editForm s) (shown s).

(** [form.resetFields()]: back to [initialValues]. *)
Definition form_resetFields (s : State) : State :=
  mkState (data s) (loading s) (isEditModalVisible s) (editingPost s)
          (Values.mk "" "") (editForm s) (shown s).

(** [editForm.setFieldsValue(post)]: the form has the fields [title] and
    [body]. *)
Definition editForm_setFieldsValue (post : Post) (s : State) : State :=
  mkState (data s) (loading s) (isEditModalVisible s) (editingPost s)
          (form s) (Some (Values.mk (title post) (body post))) (shown s).

Definition show (f : Feedback) (s : State) : State :=
  mkState (data s) (loading s) (isEditModalVisible s) (editingPost s)
          (form s) (editForm s) (shown s ++ [f]).

(** ** Numbers

    A [number] is an IEEE 754 binary64 value.  Every integer of magnitude
    up to [2^53] is a double; beyond that only multiples of a growing power
    of two are.  [Number.MAX_SAFE_INTEGER] is [2^53 - 1]. *)

Definition MAX_SAFE_INTEGER : Z := 2 ^ 53 - 1.

(** [Number.isSafeInteger] on an integer. *)
Definition isSafeInteger (z : Z) : Prop :=
  - MAX_SAFE_INTEGER ≤ z ≤ MAX_SAFE_INTEGER.

#[global] Instance isSafeInteger_dec (z : Z) : Decision (isSafeInteger z).
Proof. unfold isSafeInteger. apply _. Defined.

(** The double nearest to the integer [z], ties to the even significand:
    [|z| = q * 2^e + r] with a 53-bit [q], and [r] decides the direction. *)
Definition round_double (z : Z) : Z :=
  let a := Z.abs z in
  if decide (a ≤ 2 ^ 53) then z
  else
    let e := Z.log2 a - 52 in
    let q := a / 2 ^ e in
    let r := a mod 2 ^ e in
    let half := 2 ^ (e - 1) in
    let q' :=
      if decide (r < half) then q
      else if decide (half < r) then q + 1
      else if Z.even q then q else q + 1 in
    Z.sgn z * (q' * 2 ^ e).

(** [a + b] on integer-valued doubles: the exact sum, rounded. *)
Definition double_add (a b : Z) : Z := round_double (a + b).

(** How the evaluation of an expression ends: with a value, or with the
    [RangeError] of a call with too many arguments. *)
Inductive Completion (A : Type) : Type :=
  | returns (a : A)
  | throws_RangeError.
Arguments returns {A} a.
Arguments throws_RangeError {A}.

(** ** Requests in flight *)

(** A request that was issued, with the variables its callbacks captured
    when the handler ran. *)
Inductive Pending :=
  (* useEffect: axios.get(".../posts") *)
  | axios_get
  (* onFinish: axios.post(".../posts", newPost); captures [data], [newPost] *)
  | axios_post (data0 : list Post) (newPost : Post)
  (* handleUpdate: axios.put(".../posts/${editingPost.id}", updatedPost);
     captures [editingPost], [updatedPost] *)
  | axios_put (editingPost0 updatedPost : Post)
  (* handleDelete: axios.delete(".../posts/${id}"); captures [id] *)
  | axios_delete (id0 : Z).

(** How a promise settles.  Only the [get] callback reads the response
    ([res.data]); the others take no argument. *)
Inductive Response :=
  | fulfilled (res_data : list Post)
  | rejected.

(** ** Handlers *)

Section engine.

(** The number of arguments the engine accepts in one call; it depends on
    the engine and its stack.  A spread of a longer list throws a
    [RangeError]. *)
Variable max_arguments : Z.

(** The mount effect. *)
Definition useEffect (s : State) : State * Pending :=
  (setLoading true s, axios_get).

(** [Math.max] applied to the arguments [xs]; [None] is the [-Infinity]
    of an empty argument list. *)
Definition Math_max (xs : list Z) : option Z :=
  foldr (λ x acc, Some (from_option (Z.max x) x acc)) None xs.

(** [f(...xs)]: the call is made when the engine takes that many
    arguments, and throws otherwise. *)
Definition spread {A} (f : list Z → A) (xs : list Z) : Completion A :=
  if decide (Z.of_nat (length xs) ≤ max_arguments)
  then returns (f xs)
  else throws_RangeError.

(** [data.length > 0 ? Math.max(...data.map((post) => post.id)) : 0].
    On the first branch the argument list is not empty, so a maximum that
    is returned is a number ([Math_max_is_Some] below). *)
Definition maxId (posts : list Post) : Completion Z :=
  if decide (0 < length posts)%nat
  then match spread Math_max (id <$> posts) with
       | returns m => returns (default 0 m)
       | throws_RangeError => throws_RangeError
       end
  else returns 0.

(** [{ ...values, id: maxId + 1, userId: 1 }] *)
Definition newPost (values : Values.t) (maxId : Z) : Post :=
  {| userId := 1; id := double_add maxId 1;
     title := Values.title values; body := Values.body values |}.

(** [setLoading(true)] comes first; when the next line throws, the handler
    ends there and no request is issued ([None]). *)
Definition onFinish (values : Values.t) (s : State)
  : State * option Pending :=
  let s1 := setLoading true s in
  match maxId (data s) with
  | returns m => (s1, Some (axios_post (data s) (newPost values m)))
  | throws_RangeError => (s1, None)
  end.

Definition handleEdit (post : Post) (s : State) : State :=
  setIsEditModalVisible true
    (editForm_setFieldsValue post (setEditingPost (Some post) s)).

(** [{ ...editingPost, ...values }] *)
Definition updatedPost (editing : Post) (values : Values.t) : Post :=
  {| userId := userId editing; id := id editing;
     title := Values.title values; body := Values.body values |}.

(** [None]: the early [return], no request is issued. *)
Definition handleUpdate (values : Values.t) (s : State)
  : State * option Pending :=
  match editingPost s with
  | None => (s, None)
  | Some editing =>
      (s, Some (axios_put editing (updatedPost editing values)))
  end.

Definition handleDelete (k : Z) (s : State) : State * Pending :=
  (setLoading true s, axios_delete k).

(** The modal's [onCancel]. *)
Definition onCancel (s : State) : State :=
  setIsEditModalVisible false s.

(** ** Callbacks *)

(** [prevData.map((post) => post.id === editingPost.id ? updatedPost : post)] *)
Definition replace_by_id (editing updated : Post) (prevData : list Post)
  : list Post :=
  (λ post, if decide (id post = id editing) then updated else post)
    <$> prevData.

(** [prevData.filter((post) => post.id !== id)] *)
Definition remove_by_id (k : Z) (prevData : list Post) : list Post :=
  filter (λ post, id post ≠ k) prevData.

(** The [.then] callback of each request, run on the state [s] at the time
    the promise is fulfilled.  [setData] with a function reads [data s];
    [setData([...data, newPost])] uses the captured list. *)
Definition on_then (p : Pending) (res_data : list Post) (s : State) : State :=
  match p with
  | axios_get =>
      setLoading false (setData res_data s)
  | axios_post data0 new =>
      setLoading false
        (form_resetFields
           (show (message_success "Post added successfully!")
              (setData (data0 ++ [new]) s)))
  | axios_put editing updated =>
      setEditingPost None
        (setIsEditModalVisible false
           (show (message_success "Post updated successfully!")
              (setData (replace_by_id editing updated (data s)) s)))
  | axios_delete k =>
      setLoading false
        (show (message_success "Post deleted successfully!")
           (setData (remove_by_id k (data s)) s))
  end.

(** The [.catch] callback of each request. *)
Definition on_catch (p : Pending) (s : State) : State :=
  match p with
  | axios_get =>
      setLoading false
        (show (notification_error "Error Fetching Data"
                 "Unable to fetch posts from the server. Please try again later.")
           s)
  | axios_post _ _ =>
      setLoading false
        (show (notification_error "Error Adding Post"
                 "Failed to add the post. Please try again later.")
           s)
  | axios_put _ _ =>
      show (notification_error "Error Updating Post"
              "Failed to update the post. Please try again later.")
        s
  | axios_delete _ =>
      setLoading false
        (show (notification_error "Error Deleting Post"
                 "Failed to delete the post. Please try again later.")
           s)
  end.

Definition settle (p : Pending) (r : Response) (s : State) : State :=
  match r with
  | fulfilled res_data => on_then p res_data s
  | rejected => on_catch p s
  end.

(** ** One operation, run until its request settles

    The handler runs on [s] and its request, when it issues one, settles
    with [r] before any other event reaches the component. *)

Definition run_fetch (r : Response) (s : State) : State :=
  let '(s1, p) := useEffect s in settle p r s1.

Definition run_create (values : Values.t) (r : Response) (s : State) : State :=
  match onFinish values s with
  | (s1, Some p) => settle p r s1
  | (s1, None) => s1
  end.

Definition run_update (values : Values.t) (r : Response) (s : State) : State :=
  match handleUpdate values s with
  | (s1, Some p) => settle p r s1
  | (s1, None) => s1
  end.

Definition run_delete (k : Z) (r : Response) (s : State) : State :=
  let '(s1, p) := handleDelete k s in settle p r s1.

(** ** The component as a transition system

    The state together with the requests in flight.  User events run a
    handler; a network event settles any one of the requests in flight, in
    any order. *)

Record Component := mkComponent {
  state : State;
  inflight : list Pending
}.

(** After the first render: the mount effect has run. *)
Definition mounted : Component :=
  let '(s, p) := useEffect initialState in mkComponent s [p].

(** [unique_ids posts]: no two entries of [posts] share the same id. *)
Definition unique_ids (posts : list Post) : Prop := NoDup (id <$> posts).

Inductive step : Component → Component → Prop :=
  | step_submit values s ps :
      step (mkComponent s ps)
           (mkComponent (onFinish values s).1
              (ps ++ option_list (onFinish values s).2))
  | step_edit post s ps :
      post ∈ data s →
      step (mkComponent s ps) (mkComponent (handleEdit post s) ps)
  | step_cancel s ps :
      step (mkComponent s ps) (mkComponent (onCancel s) ps)
  | step_update values s ps :
      step (mkComponent s ps)
           (mkComponent (handleUpdate values s).1
              (ps ++ option_list (handleUpdate values s).2))
  | step_delete post s ps :
      post ∈ data s →
      step (mkComponent s ps)
           (mkComponent (handleDelete (id post) s).1
              (ps ++ [(handleDelete (id post) s).2]))
  (* the collection the server answers a [get] with has unique ids *)
  | step_fulfilled i p res_data s ps :
      ps !! i = Some p →
      (p = axios_get → unique_ids res_data) →
      step (mkComponent s ps)
           (mkComponent (on_then p res_data s) (delete i ps))
  | step_rejected i p s ps :
      ps !! i = Some p →
      step (mkComponent s ps) (mkComponent (on_catch p s) (delete i ps)).

Definition reachable : Component → Prop := rtc step mounted.

(** A step from a state that satisfies [P], and the components reached
    from [mounted] by such steps only. *)
Definition step_while (P : State → Prop) (c c' : Component) : Prop :=
  P (state c) ∧ step c c'.

Definition reachable_while (P : State → Prop) : Component → Prop :=
  rtc (step_while P) mounted.

(** Every id of the posts list is a safe integer. *)
Definition safe_ids (s : State) : Prop :=
  Forall isSafeInteger (id <$> data s).

(** The posts list can be spread into the arguments of a call. *)
Definition spreadable (s : State) : Prop :=
  Z.of_nat (length (data s)) ≤ max_arguments.

(** What the callbacks of a request in flight rely on: the list and the
    post captured by a create have unique ids together, and the post an
    update puts carries the id it is looked up by. *)
Definition pending_ok (p : Pending) : Prop :=
  match p with
  | axios_post data0 new => unique_ids (data0 ++ [new])
  | axios_put editing updated => id updated = id editing
  | axios_get | axios_delete _ => True
  end.

Definition invariant (c : Component) : Prop :=
  unique_ids (data (state c)) ∧ Forall pending_ok (inflight c).

(** ** Sample states

    The scenarios of the specification, used to run the handlers on concrete
    inputs. *)

Definition post1 : Post := mkPost 1 1 "a" "x".
Definition post2 : Post := mkPost 7 2 "old" "y".
Definition post3 : Post := mkPost 1 3 "c" "z".
Definition post5 : Post := mkPost 2 5 "e" "w".

(** Scenario B: two posts, ids 1 and 3. *)
Definition scenarioB : State := setData [post1; post3] initialState.

(** Scenario C: the edit modal is open on the post with id 2. *)
Definition scenarioC : State :=
  handleEdit post2 (setData [post1; post2; post3] initialState).

(** Scenario D: the list holds a post with id 5. *)
Definition scenarioD : State := setData [post1; post5] initialState.

(** The edit modal was opened on the post with id 2, and the row was
    deleted before the form is submitted. *)
Definition editing_deleted_row : State :=
  run_delete 2 (fulfilled []) scenarioC.

(** The fetch was answered with the two posts of scenario B. *)
Definition fetchedB : Component :=
  mkComponent (on_then axios_get [post1; post3] (state mounted)) [].

(** The edit form of scenario C was submitted, the modal was dismissed, and
    the create form was submitted while the update was still in flight. *)
Definition update_then_create
  : State * option Pending * option Pending :=
  let '(s1, put) := handleUpdate (Values.mk "new" "y") scenarioC in
  let '(s2, post) := onFinish (Values.mk "t" "b") (onCancel s1) in
  (s2, put, post).

(** An engine limit for the concrete runs, and a small one that a list of
    two posts exceeds. *)
Definition sample_limit : Z := 65535.
Definition small_limit : Z := 1.

(** A posts list whose one id is [2^53], the first integer past the safe
    range. *)
Definition post_2_53 : Post := mkPost 1 (2 ^ 53) "a" "x".
Definition beyond_safe : State := setData [post_2_53] initialState.

(** The requests that drive [loading]: their handlers call
    [setLoading(true)] and both of their callbacks call [setLoading(false)].
    The [put] of [handleUpdate] is the one that does not. *)
Definition tracks_loading (p : Pending) : bool :=
  match p with
  | axios_put _ _ => false
  | axios_get | axios_post _ _ | axios_delete _ => true
  end.

(** The values the edit form is submitted with when the user changes
    nothing after [handleEdit post]: the fields [setFieldsValue] filled in. *)
Definition prefilled (post : Post) : Values.t :=
  Values.mk (title post) (body post).

(** After the fetch of scenario B, the edit modal was opened on the first
    row. *)
Definition editingB : Component :=
  mkComponent (handleEdit post1 (state fetchedB)) [].

(** Scenario C with the edit form submitted: the update is in flight. *)
Definition updatingC : Component :=
  mkComponent (handleUpdate (Values.mk "new" "y") scenarioC).1
    (option_list (handleUpdate (Values.mk "new" "y") scenarioC).2).

(** * Properties *)

(** ** Setters and projections *)

Lemma on_catch_data p s : data (on_catch p s) = data s.
Proof. by destruct p. Qed.

Lemma on_then_post_data d new res s :
  data (on_then (axios_post d new) res s) = d ++ [new].
Proof. done. Qed.

Lemma on_then_put_data editing updated res s :
  data (on_then (axios_put editing updated) res s)
  = replace_by_id editing updated (data s).
Proof. done. Qed.

Lemma on_then_delete_data k res s :
  data (on_then (axios_delete k) res s) = remove_by_id k (data s).
Proof. done. Qed.

(** ** [Math.max] over a non-empty argument list *)

Lemma Math_max_cons x xs :
  Math_max (x :: xs) = Some (from_option (Z.max x) x (Math_max xs)).
Proof. done. Qed.

Lemma Math_max_is_Some xs : xs ≠ [] → is_Some (Math_max xs).
Proof. destruct xs; [done|]. rewrite Math_max_cons. eauto. Qed.

Lemma Math_max_nil_iff xs : Math_max xs = None ↔ xs = [].
Proof. destruct xs; [done|]. by rewrite Math_max_cons. Qed.

(** The result is an argument, and no argument exceeds it. *)
Lemma Math_max_spec xs m :
  Math_max xs = Some m → m ∈ xs ∧ Forall (λ x, x ≤ m) xs.
Proof.
  revert m. induction xs as [|x xs IH]; intros m; [done|].
  rewrite Math_max_cons. intros [= <-].
  destruct (Math_max xs) as [m'|] eqn:Hxs; simpl.
  - destruct (IH m' eq_refl) as [Hin Hle].
    split.
    + destruct (Z.max_spec x m') as [[_ ->]|[_ ->]];
        [by apply list_elem_of_further | apply list_elem_of_here].
    + constructor; [lia|].
      eapply Forall_impl; [exact Hle|]. simpl. lia.
  - apply Math_max_nil_iff in Hxs as ->.
    split; [apply list_elem_of_here|]. by repeat constructor.
Qed.

Lemma maxId_nil : maxId [] = returns 0.
Proof. done. Qed.

(** The empty list is never spread; any other list is, and the call throws
    exactly when it is longer than the engine takes. *)
Lemma maxId_throws posts :
  maxId posts = throws_RangeError
  ↔ posts ≠ [] ∧ max_arguments < Z.of_nat (length posts).
Proof.
  unfold maxId, spread. rewrite length_fmap.
  destruct posts as [|post posts].
  - split; [done|]. by intros [? _].
  - rewrite decide_True by (simpl; lia).
    case_decide; split; [done|intros [_ ?]; lia|split; [done|lia]|done].
Qed.

Lemma maxId_returns posts :
  Z.of_nat (length posts) ≤ max_arguments → ∃ m, maxId posts = returns m.
Proof.
  intros Hlen. destruct (maxId posts) as [m|] eqn:Hm; [by eexists|].
  apply maxId_throws in Hm as [_ ?]. lia.
Qed.

Lemma maxId_spec posts m :
  maxId posts = returns m →
  posts ≠ [] →
  m ∈ id <$> posts ∧ Forall (λ x, x ≤ m) (id <$> posts).
Proof.
  unfold maxId, spread. intros Hm Hne.
  destruct posts as [|post posts]; [done|].
  rewrite decide_True in Hm by (simpl; lia).
  case_decide; [|done].
  destruct (Math_max_is_Some (id <$> post :: posts)) as [m' Hm']; [done|].
  rewrite Hm' in Hm. injection Hm as <-. simpl. by apply Math_max_spec.
Qed.

Lemma maxId_empty m : maxId [] = returns m → m = 0.
Proof. by intros [= <-]. Qed.

(** The maximum of safe ids is safe, and so is the [0] of the empty
    list. *)
Lemma maxId_safe posts m :
  maxId posts = returns m →
  Forall isSafeInteger (id <$> posts) → isSafeInteger m.
Proof.
  intros Hm Hsafe. destruct posts as [|post posts].
  - apply maxId_empty in Hm as ->. by vm_compute.
  - destruct (maxId_spec _ _ Hm) as [Hin _]; [done|].
    rewrite Forall_forall in Hsafe. by apply Hsafe.
Qed.

(** ** Adding one to a double *)

(** Up to [2^53] the sum is exact. *)
Lemma round_double_exact z : Z.abs z ≤ 2 ^ 53 → round_double z = z.
Proof. intros Hz. unfold round_double. by rewrite decide_True. Qed.

Lemma double_add_1_safe m : isSafeInteger m → double_add m 1 = m + 1.
Proof.
  unfold isSafeInteger, MAX_SAFE_INTEGER. intros Hm.
  apply round_double_exact. lia.
Qed.

(** Past the safe range it is not: [2^53 + 1] is no double, and the sum
    rounds back to [2^53]. *)
Lemma double_add_1_at_2_53 : double_add (2 ^ 53) 1 = 2 ^ 53.
Proof. reflexivity. Qed.

Lemma newPost_fresh values posts m :
  maxId posts = returns m →
  Forall isSafeInteger (id <$> posts) →
  id (newPost values m) = m + 1 ∧ id (newPost values m) ∉ id <$> posts.
Proof.
  intros Hm Hsafe. simpl.
  rewrite double_add_1_safe by (by eapply maxId_safe).
  split; [done|].
  destruct posts as [|post posts]; [apply not_elem_of_nil|].
  destruct (maxId_spec _ _ Hm) as [_ Hle]; [done|].
  intros Hin. rewrite Forall_forall in Hle. apply Hle in Hin. lia.
Qed.

(** ** What [onFinish] returns *)

Lemma onFinish_state values s : (onFinish values s).1 = setLoading true s.
Proof. unfold onFinish. by destruct (maxId (data s)). Qed.

Lemma onFinish_request values s p :
  (onFinish values s).2 = Some p ↔
  ∃ m, maxId (data s) = returns m
       ∧ p = axios_post (data s) (newPost values m).
Proof.
  unfold onFinish. destruct (maxId (data s)) as [m|]; simpl.
  - split; [intros [= <-]; eauto|]. by intros (m' & [= <-] & ->).
  - split; [done|]. by intros (m' & ? & _).
Qed.

Lemma onFinish_issues values s :
  Z.of_nat (length (data s)) ≤ max_arguments →
  ∃ m, maxId (data s) = returns m
       ∧ onFinish values s
         = (setLoading true s,
            Some (axios_post (data s) (newPost values m))).
Proof.
  intros Hlen. destruct (maxId_returns _ Hlen) as [m Hm].
  exists m. split; [done|]. unfold onFinish. by rewrite Hm.
Qed.

Lemma run_create_data values r s :
  data (run_create values r s) = data s
  ∨ ∃ m, maxId (data s) = returns m
         ∧ r ≠ rejected
         ∧ data (run_create values r s) = data s ++ [newPost values m].
Proof.
  unfold run_create, onFinish.
  destruct (maxId (data s)) as [m|]; [|by left].
  destruct r as [res|]; [|by left].
  right. by exists m.
Qed.

(** ** Replacing and removing by id *)

Section by_id.
Implicit Types (posts : list Post) (editing updated post : Post) (k : Z).

Lemma replace_by_id_length editing updated posts :
  length (replace_by_id editing updated posts) = length posts.
Proof. apply length_fmap. Qed.

Lemma replace_by_id_lookup editing updated posts i :
  replace_by_id editing updated posts !! i
  = (λ post, if decide (id post = id editing) then updated else post)
      <$> posts !! i.
Proof. apply list_lookup_fmap. Qed.

(** When the replacement carries the id it is looked up by, the map keeps
    the id at every position. *)
Lemma replace_by_id_ids editing updated posts :
  id updated = id editing →
  id <$> replace_by_id editing updated posts = id <$> posts.
Proof.
  intros Hid. unfold replace_by_id. rewrite <-list_fmap_compose.
  apply list_fmap_ext. intros _ post _. simpl.
  case_decide; congruence.
Qed.

Lemma replace_by_id_absent editing updated posts :
  id editing ∉ id <$> posts →
  replace_by_id editing updated posts = posts.
Proof.
  intros Hnot. unfold replace_by_id.
  rewrite <-(list_fmap_id posts) at 2.
  apply list_fmap_ext. intros i post Hi. simpl.
  case_decide as Heq; [|done].
  destruct Hnot. rewrite <-Heq.
  apply list_elem_of_fmap_2, list_elem_of_lookup. eauto.
Qed.

(** With unique ids the map touches one position only. *)
Lemma replace_by_id_insert editing updated posts i old :
  unique_ids posts →
  posts !! i = Some old → id old = id editing →
  replace_by_id editing updated posts = <[i:=updated]> posts.
Proof.
  intros Hnd Hi Hold. apply list_eq. intros j.
  rewrite replace_by_id_lookup.
  destruct (decide (j = i)) as [->|Hne].
  - rewrite list_lookup_insert_eq by (by eapply lookup_lt_Some).
    rewrite Hi. simpl. by rewrite decide_True.
  - rewrite list_lookup_insert_ne by done.
    destruct (posts !! j) as [q|] eqn:Hj; [|done]. simpl.
    case_decide as Heq; [|done].
    destruct Hne.
    eapply (NoDup_lookup (id <$> posts) j i (id q)); [done|..];
      rewrite list_lookup_fmap.
    + by rewrite Hj.
    + rewrite Hi. simpl. congruence.
Qed.

Lemma unique_ids_lookup posts i j p q :
  unique_ids posts →
  posts !! i = Some p → posts !! j = Some q → id p = id q → i = j.
Proof.
  intros Hnd Hi Hj Heq.
  eapply (NoDup_lookup (id <$> posts) i j (id p)); [done|..];
    rewrite list_lookup_fmap.
  - by rewrite Hi.
  - rewrite Hj. simpl. congruence.
Qed.

Lemma remove_by_id_elem_of k posts post :
  post ∈ remove_by_id k posts ↔ post ∈ posts ∧ id post ≠ k.
Proof. unfold remove_by_id. rewrite list_elem_of_filter. tauto. Qed.

Lemma remove_by_id_ids k posts :
  id <$> remove_by_id k posts = filter (λ x, x ≠ k) (id <$> posts).
Proof.
  unfold remove_by_id. induction posts as [|post posts IH]; [done|].
  rewrite fmap_cons, !filter_cons.
  case_decide; rewrite ?fmap_cons; by f_equal.
Qed.

Lemma remove_by_id_gone k posts : k ∉ id <$> remove_by_id k posts.
Proof.
  rewrite remove_by_id_ids, list_elem_of_filter. tauto.
Qed.

Lemma remove_by_id_sublist k posts :
  remove_by_id k posts `sublist_of` posts.
Proof. apply sublist_filter. Qed.

(** Up to order, the list is what is kept plus the entries with id [k]:
    nothing else is dropped, and nothing is duplicated. *)
Lemma remove_by_id_complement k posts :
  posts ≡ₚ remove_by_id k posts ++ filter (λ post, id post = k) posts.
Proof.
  unfold remove_by_id. induction posts as [|post posts IH]; [done|].
  rewrite !filter_cons.
  destruct (decide (id post = k)) as [Heq|Hne].
  - rewrite decide_False by tauto.
    rewrite <-Permutation_middle. by constructor.
  - rewrite decide_True by done. simpl. by constructor.
Qed.

Lemma remove_by_id_absent k posts :
  k ∉ id <$> posts → remove_by_id k posts = posts.
Proof.
  intros Hnot. unfold remove_by_id.
  induction posts as [|post posts IH]; [done|].
  rewrite fmap_cons, not_elem_of_cons in Hnot. destruct Hnot as [Hne Hnot].
  rewrite filter_cons_True by done. by rewrite IH.
Qed.

Lemma unique_ids_replace editing updated posts :
  id updated = id editing →
  unique_ids posts → unique_ids (replace_by_id editing updated posts).
Proof. intros Hid. unfold unique_ids. by rewrite replace_by_id_ids. Qed.

Lemma unique_ids_remove k posts :
  unique_ids posts → unique_ids (remove_by_id k posts).
Proof.
  unfold unique_ids. rewrite remove_by_id_ids. apply NoDup_filter.
Qed.

Lemma unique_ids_append values posts m :
  maxId posts = returns m →
  Forall isSafeInteger (id <$> posts) →
  unique_ids posts → unique_ids (posts ++ [newPost values m]).
Proof.
  unfold unique_ids. intros Hm Hsafe Hnd. rewrite fmap_app.
  apply NoDup_app. split_and!; [done| |apply NoDup_singleton].
  intros x Hx ->%list_elem_of_singleton.
  by destruct (newPost_fresh values posts m Hm Hsafe) as [_ []].
Qed.
End by_id.

(** ** The scenarios, evaluated *)

Example scenarioC_update :
  data (run_update (Values.mk "new" "y") (fulfilled []) scenarioC)
  = [post1; mkPost 7 2 "new" "y"; post3].
Proof. reflexivity. Qed.

Example scenarioD_delete_rejected :
  data (run_delete 5 rejected scenarioD) = [post1; post5]
  ∧ loading (run_delete 5 rejected scenarioD) = false
  ∧ shown (run_delete 5 rejected scenarioD)
    = [notification_error "Error Deleting Post"
         "Failed to delete the post. Please try again later."].
Proof. by split_and!. Qed.

Example editing_deleted_row_state :
  data editing_deleted_row = [post1; post3]
  ∧ editingPost editing_deleted_row = Some post2
  ∧ isEditModalVisible editing_deleted_row = true.
Proof. by split_and!. Qed.

(** ** Create *)

(** C1, amended.  When the posts list can be spread into the arguments of
    [Math.max] and its ids are safe integers, [onFinish] submits a post
    whose synthetic id equals [1 + max] of the ids in the list when the
    list is not empty (the maximum [m] is an id of the list that no id of
    the list exceeds), and equals [1] when the list is empty. *)
Theorem onFinish_synthetic_id (values : Values.t) (s : State) :
  spreadable s →
  safe_ids s →
  ∃ new,
    (onFinish values s).2 = Some (axios_post (data s) new)
    ∧ (data s ≠ [] →
       ∃ m, m ∈ id <$> data s
            ∧ Forall (λ x, x ≤ m) (id <$> data s)
            ∧ id new = 1 + m)
    ∧ (data s = [] → id new = 1).
Proof.
  intros Hlen Hsafe.
  destruct (onFinish_issues values s Hlen) as (m & Hm & Hon).
  destruct (newPost_fresh values (data s) m Hm Hsafe) as [Hid _].
  exists (newPost values m). rewrite Hon. split_and!; [done| |].
  - intros Hne. exists m.
    destruct (maxId_spec (data s) m Hm Hne) as [Hin Hle].
    split_and!; [done|done|]. rewrite Hid. lia.
  - intros Hnil. rewrite Hnil in Hm. apply maxId_empty in Hm as ->.
    by rewrite Hid.
Qed.

(** ** Unique ids *)

(** C2, amended.  Id uniqueness is preserved by each mutating operation:
    from a posts list in which no two entries share an id, a successful
    update and a successful delete each yield such a list, and so does a
    successful create when the ids of the list are safe integers. *)
Theorem unique_ids_preserved (values : Values.t) (k : Z) (res : list Post)
    (s : State) :
  unique_ids (data s) →
  (safe_ids s → unique_ids (data (run_create values (fulfilled res) s)))
  ∧ unique_ids (data (run_update values (fulfilled res) s))
  ∧ unique_ids (data (run_delete k (fulfilled res) s)).
Proof.
  intros Hnd. split_and!.
  - intros Hsafe.
    destruct (run_create_data values (fulfilled res) s)
      as [->|(m & Hm & _ & ->)]; [done|].
    by apply unique_ids_append.
  - unfold run_update, handleUpdate.
    destruct (editingPost s) as [editing|]; [|done].
    simpl. by apply unique_ids_replace.
  - by apply unique_ids_remove.
Qed.

(** ** Update *)

(** C3. On a posts list with unique ids that contains an entry with id [k],
    with an [editingPost] of id [k], a successful update replaces exactly
    the entry with id [k] (the one position [i] that holds it) by the merged
    post, which keeps the id and userId of [editingPost] and takes title and
    body from the submitted values; every other entry is unchanged and stays
    at its position. *)
Theorem update_replaces_by_id (values : Values.t) (res : list Post)
    (s : State) (editing : Post) (k : Z) :
  editingPost s = Some editing →
  id editing = k →
  unique_ids (data s) →
  k ∈ id <$> data s →
  ∃ i old,
    data s !! i = Some old
    ∧ id old = k
    ∧ (∀ j q, data s !! j = Some q → id q = k → j = i)
    ∧ data (run_update values (fulfilled res) s)
      = <[i := {| userId := userId editing; id := id editing;
                  title := Values.title values;
                  body := Values.body values |}]> (data s).
Proof.
  intros Hed Hk Hnd Hin.
  apply list_elem_of_fmap in Hin as (old & Hold & Hin).
  apply list_elem_of_lookup in Hin as [i Hi].
  exists i, old. split_and!; [done|done| |].
  - intros j q Hj Hq. eapply unique_ids_lookup; eauto. congruence.
  - unfold run_update, handleUpdate. rewrite Hed. simpl.
    eapply replace_by_id_insert; eauto. congruence.
Qed.

Lemma update_replaces_by_id_scenarioC :
  ∃ i old,
    data scenarioC !! i = Some old
    ∧ id old = 2
    ∧ (∀ j q, data scenarioC !! j = Some q → id q = 2 → j = i)
    ∧ data (run_update (Values.mk "new" "y") (fulfilled []) scenarioC)
      = <[i := mkPost 7 2 "new" "y"]> (data scenarioC).
Proof.
  apply (update_replaces_by_id (Values.mk "new" "y") [] scenarioC post2 2).
  - reflexivity.
  - reflexivity.
  - apply (bool_decide_unpack _). vm_compute. exact I.
  - apply (bool_decide_unpack _). vm_compute. exact I.
Defined.

(** C8. Without an [editingPost], [handleUpdate] is a no-op: no request is
    issued and the whole client state (posts, loading, editingPost, modal
    visibility, and the rest) is the state it was called on. *)
Theorem handleUpdate_without_editingPost (values : Values.t) (s : State) :
  editingPost s = None →
  handleUpdate values s = (s, None)
  ∧ ∀ r, run_update values r s = s.
Proof.
  intros Hed. unfold run_update, handleUpdate. by rewrite Hed.
Qed.

Lemma handleUpdate_without_editingPost_scenarioB :
  handleUpdate (Values.mk "t" "b") scenarioB = (scenarioB, None)
  ∧ ∀ r, run_update (Values.mk "t" "b") r scenarioB = scenarioB.
Proof.
  apply (handleUpdate_without_editingPost (Values.mk "t" "b") scenarioB).
  reflexivity.
Defined.

(** C10. With an [editingPost] whose id occurs in no entry of the posts
    list, a successful update leaves the list exactly as it was (nothing is
    inserted), and still shows the success toast, closes the modal and
    clears [editingPost]. *)
Theorem update_of_absent_id (values : Values.t) (res : list Post)
    (s : State) (editing : Post) :
  editingPost s = Some editing →
  id editing ∉ id <$> data s →
  data (run_update values (fulfilled res) s) = data s
  ∧ shown (run_update values (fulfilled res) s)
    = shown s ++ [message_success "Post updated successfully!"]
  ∧ isEditModalVisible (run_update values (fulfilled res) s) = false
  ∧ editingPost (run_update values (fulfilled res) s) = None.
Proof.
  intros Hed Hnot. unfold run_update, handleUpdate. rewrite Hed. simpl.
  split_and!; [|done..]. by apply replace_by_id_absent.
Qed.

Lemma update_of_absent_id_deleted_row :
  data (run_update (Values.mk "new" "y") (fulfilled []) editing_deleted_row)
  = data editing_deleted_row
  ∧ shown (run_update (Values.mk "new" "y") (fulfilled []) editing_deleted_row)
    = shown editing_deleted_row
      ++ [message_success "Post updated successfully!"]
  ∧ isEditModalVisible
      (run_update (Values.mk "new" "y") (fulfilled []) editing_deleted_row)
    = false
  ∧ editingPost
      (run_update (Values.mk "new" "y") (fulfilled []) editing_deleted_row)
    = None.
Proof.
  apply (update_of_absent_id (Values.mk "new" "y") [] editing_deleted_row
           post2).
  - reflexivity.
  - apply (bool_decide_unpack _). vm_compute. exact I.
Defined.

(** ** Delete *)

(** C4. After a successful delete of [k] the posts list has no entry with
    id [k]; its entries are exactly the old entries whose id differs from
    [k], unchanged, each as often as before, and in the same relative
    order. *)
Theorem delete_removes_by_id (k : Z) (res : list Post) (s : State) :
  (k ∉ id <$> data (run_delete k (fulfilled res) s))
  ∧ (∀ post, post ∈ data (run_delete k (fulfilled res) s)
             ↔ post ∈ data s ∧ id post ≠ k)
  ∧ data (run_delete k (fulfilled res) s) `sublist_of` data s
  ∧ data s ≡ₚ (data (run_delete k (fulfilled res) s)
               ++ filter (λ post, id post = k) (data s)).
Proof.
  split_and!.
  - apply remove_by_id_gone.
  - intros post. apply remove_by_id_elem_of.
  - apply remove_by_id_sublist.
  - apply remove_by_id_complement.
Qed.

(** C9. A successful delete of an id [k] that occurs in no entry leaves the
    posts list exactly as it was and still reports success: the success
    toast is shown, and nothing signals that no entry was removed. *)
Theorem delete_of_absent_id (k : Z) (res : list Post) (s : State) :
  k ∉ id <$> data s →
  data (run_delete k (fulfilled res) s) = data s
  ∧ shown (run_delete k (fulfilled res) s)
    = shown s ++ [message_success "Post deleted successfully!"].
Proof.
  intros Hnot. split; [|done]. by apply remove_by_id_absent.
Qed.

Lemma delete_of_absent_id_scenarioB :
  data (run_delete 2 (fulfilled []) scenarioB) = data scenarioB
  ∧ shown (run_delete 2 (fulfilled []) scenarioB)
    = shown scenarioB ++ [message_success "Post deleted successfully!"].
Proof.
  apply (delete_of_absent_id 2 [] scenarioB).
  apply (bool_decide_unpack _). vm_compute. exact I.
Defined.

(** ** Failure *)

(** C5. When the network call of a create, an update or a delete fails, the
    posts list after the failure handler has run is the list the operation
    started from, entry by entry and in the same order. *)
Theorem failure_keeps_posts (values : Values.t) (k : Z) (s : State) :
  data (run_create values rejected s) = data s
  ∧ data (run_update values rejected s) = data s
  ∧ data (run_delete k rejected s) = data s.
Proof.
  split_and!; [| |done].
  - by destruct (run_create_data values rejected s) as [?|(? & _ & ? & _)].
  - unfold run_update, handleUpdate. by destruct (editingPost s).
Qed.

(** ** The loading flag *)


(** ** Overlapping requests *)

Lemma invariant_mounted : invariant mounted.
Proof.
  split; [apply NoDup_nil_2|]. by repeat constructor.
Qed.

Lemma invariant_step c c' :
  invariant c → step_while safe_ids c c' → invariant c'.
Proof.
  intros [Hnd Hps] [Hsafe Hstep].
  destruct Hstep as [values s ps|post s ps Hin|s ps|values s ps|post s ps Hin
                    |i p res_data s ps Hi Hres|i p s ps Hi];
    simpl in *.
  - rewrite onFinish_state. split; [done|]. apply Forall_app_2; [done|].
    destruct ((onFinish values s).2) as [p|] eqn:Hp; [|by constructor].
    apply onFinish_request in Hp as (m & Hm & ->).
    apply Forall_singleton. by apply unique_ids_append.
  - done.
  - done.
  - unfold handleUpdate. destruct (editingPost s) as [editing|]; simpl.
    + split; [done|]. apply Forall_app_2; [done|]. by apply Forall_singleton.
    + by rewrite app_nil_r.
  - split; [done|]. apply Forall_app_2; [done|]. by apply Forall_singleton.
  - split; [|by apply Forall_delete].
    pose proof (Forall_lookup_1 _ _ _ _ Hps Hi) as Hp.
    destruct p as [|data0 new|editing updated|k]; simpl in *.
    + by apply Hres.
    + done.
    + by apply unique_ids_replace.
    + by apply unique_ids_remove.
  - split; [|by apply Forall_delete]. by destruct p.
Qed.

(** As long as the ids of the posts list stay safe integers, id uniqueness
    holds in every state the component reaches, however the user events
    and the settlements of the requests in flight interleave, when the
    fetch is answered with unique ids. *)
Theorem reachable_unique_ids (c : Component) :
  reachable_while safe_ids c → unique_ids (data (state c)).
Proof.
  intros Hreach. cut (invariant c); [by intros []|].
  revert c Hreach. apply (rtc_ind_r invariant mounted).
  - apply invariant_mounted.
  - intros c c' _ Hstep IH. by eapply invariant_step.
Qed.

(** The [.then] callback of a create writes the list captured when the
    form was submitted plus the new post, whatever the list is by the time
    the request is fulfilled: changes made in between are discarded. *)
Theorem create_writes_captured_list (values : Values.t) (res : list Post)
    (s s' : State) (p : Pending) :
  (onFinish values s).2 = Some p →
  ∃ m, maxId (data s) = returns m
       ∧ p = axios_post (data s) (newPost values m)
       ∧ data (on_then p res s') = data s ++ [newPost values m].
Proof.
  intros (m & Hm & ->)%onFinish_request. by exists m.
Qed.

(** ** The initial fetch and the failure handlers *)

(** A fulfilled fetch makes the response the posts list, entry by entry and
    in its order, whatever the list was, clears [loading] and shows
    nothing; a rejected fetch keeps the list (empty on mount), shows the
    fetch error and clears [loading]. *)
Theorem fetch_outcome (res_data : list Post) (s : State) :
  (data (run_fetch (fulfilled res_data) s) = res_data
   ∧ loading (run_fetch (fulfilled res_data) s) = false
   ∧ shown (run_fetch (fulfilled res_data) s) = shown s)
  ∧ (data (run_fetch rejected s) = data s
     ∧ loading (run_fetch rejected s) = false
     ∧ shown (run_fetch rejected s)
       = shown s
         ++ [notification_error "Error Fetching Data"
               "Unable to fetch posts from the server. Please try again later."])
  ∧ data (run_fetch rejected initialState) = [].
Proof. by split_and!. Qed.

(** A [.catch] callback touches nothing but [loading] and the
    notifications: the posts, the post under edit, the modal (it stays
    open) and the fields of both forms (they are not reset) are as before,
    and exactly one error notification is added.  [loading] is cleared,
    except by the callback of an update, which leaves it. *)
Theorem on_catch_frame (p : Pending) (s : State) :
  data (on_catch p s) = data s
  ∧ editingPost (on_catch p s) = editingPost s
  ∧ isEditModalVisible (on_catch p s) = isEditModalVisible s
  ∧ form (on_catch p s) = form s
  ∧ editForm (on_catch p s) = editForm s
  ∧ (∃ message description,
       shown (on_catch p s)
       = shown s ++ [notification_error message description])
  ∧ loading (on_catch p s) = (if tracks_loading p then false else loading s).
Proof. destruct p; split_and!; eauto. Qed.

(** ** Synthetic ids over several creates *)

Lemma maxId_unique (posts : list Post) (m m' : Z) :
  maxId posts = returns m →
  m' ∈ id <$> posts → Forall (λ x, x ≤ m') (id <$> posts) → m = m'.
Proof.
  intros Hm Hin Hle.
  assert (posts ≠ []) as Hne by (intros ->; by apply elem_of_nil in Hin).
  destruct (maxId_spec posts m Hm Hne) as [Hin' Hle'].
  rewrite Forall_forall in Hle, Hle'.
  apply Hle in Hin'. apply Hle' in Hin. lia.
Qed.

Lemma maxId_append (values : Values.t) (posts : list Post) (m m' : Z) :
  maxId posts = returns m →
  Forall isSafeInteger (id <$> posts) →
  maxId (posts ++ [newPost values m]) = returns m' →
  m' = m + 1.
Proof.
  intros Hm Hsafe Hm'.
  destruct (newPost_fresh values posts m Hm Hsafe) as [Hid _].
  apply (maxId_unique _ _ _ Hm').
  - rewrite fmap_app. apply elem_of_app. right.
    rewrite <-Hid. apply list_elem_of_here.
  - rewrite fmap_app. apply Forall_app_2.
    + destruct posts as [|post posts]; [by constructor|].
      destruct (maxId_spec _ _ Hm) as [_ Hle]; [done|].
      eapply Forall_impl; [exact Hle|]. simpl. lia.
    + apply Forall_singleton. rewrite Hid. lia.
Qed.

(** Two creates, the second submitted after the first was fulfilled, get
    consecutive ids, when both lists can be spread and the ids are safe
    integers below [MAX_SAFE_INTEGER]. *)
Theorem consecutive_creates (values1 values2 : Values.t) (res : list Post)
    (s : State) :
  Z.of_nat (length (data s)) < max_arguments →
  safe_ids s →
  Forall (λ x, x < MAX_SAFE_INTEGER) (id <$> data s) →
  ∃ new1 new2,
    (onFinish values1 s).2 = Some (axios_post (data s) new1)
    ∧ (onFinish values2 (run_create values1 (fulfilled res) s)).2
      = Some (axios_post (data s ++ [new1]) new2)
    ∧ id new2 = id new1 + 1.
Proof.
  intros Hlen Hsafe Hlt.
  destruct (onFinish_issues values1 s) as (m & Hm & Hon); [unfold spreadable; lia|].
  destruct (newPost_fresh values1 (data s) m Hm Hsafe) as [Hid _].
  assert (data (run_create values1 (fulfilled res) s)
          = data s ++ [newPost values1 m]) as Hdata.
  { unfold run_create. by rewrite Hon. }
  destruct (onFinish_issues values2 (run_create values1 (fulfilled res) s))
    as (m' & Hm' & Hon').
  { rewrite Hdata, length_app. simpl. lia. }
  rewrite Hdata in Hm', Hon'.
  pose proof (maxId_append values1 (data s) m m' Hm Hsafe Hm') as ->.
  exists (newPost values1 m), (newPost values2 (m + 1)).
  rewrite Hon, Hon'. split_and!; [done..|].
  rewrite Hid. simpl. apply double_add_1_safe.
  assert (m < MAX_SAFE_INTEGER).
  { destruct (data s) as [|post posts] eqn:Hd.
    - apply maxId_empty in Hm as ->. by vm_compute.
    - destruct (maxId_spec _ _ Hm) as [Hin _]; [done|].
      rewrite Forall_forall in Hlt. by apply Hlt. }
  pose proof (maxId_safe _ _ Hm Hsafe) as Hms.
  unfold isSafeInteger in *. lia.
Qed.

Lemma remove_by_id_created (values : Values.t) (posts : list Post) (m : Z) :
  maxId posts = returns m →
  Forall isSafeInteger (id <$> posts) →
  remove_by_id (id (newPost values m)) (posts ++ [newPost values m]) = posts.
Proof.
  intros Hm Hsafe.
  destruct (newPost_fresh values posts m Hm Hsafe) as [_ Hfresh].
  unfold remove_by_id. rewrite filter_app.
  rewrite filter_cons_False, filter_nil, app_nil_r by tauto.
  by apply remove_by_id_absent.
Qed.

(** When the posts list can be spread and its ids are safe integers,
    deleting the post that was just created gives back the list as it was
    before the create, and the next create is given the same id again: ids
    of deleted posts are reused. *)
Theorem create_then_delete (values values' : Values.t) (res res' : list Post)
    (s : State) :
  spreadable s →
  safe_ids s →
  ∃ new new',
    (onFinish values s).2 = Some (axios_post (data s) new)
    ∧ data (run_delete (id new) (fulfilled res')
              (run_create values (fulfilled res) s))
      = data s
    ∧ (onFinish values'
         (run_delete (id new) (fulfilled res')
            (run_create values (fulfilled res) s))).2
      = Some (axios_post (data s) new')
    ∧ id new' = id new.
Proof.
  intros Hlen Hsafe.
  destruct (onFinish_issues values s Hlen) as (m & Hm & Hon).
  assert (data (run_delete (id (newPost values m)) (fulfilled res')
                  (run_create values (fulfilled res) s)) = data s) as Heq.
  { unfold run_create. rewrite Hon. by apply remove_by_id_created. }
  exists (newPost values m), (newPost values' m).
  rewrite Hon. split_and!; [done|done| |done].
  unfold onFinish. by rewrite Heq, Hm.
Qed.

(** ** Delete and update by position *)

Lemma remove_by_id_delete (posts : list Post) (i : nat) (post : Post) :
  unique_ids posts → posts !! i = Some post →
  remove_by_id (id post) posts = delete i posts.
Proof.
  unfold unique_ids. revert i.
  induction posts as [|q posts IH]; intros i Hnd Hi; [done|].
  rewrite fmap_cons in Hnd. apply NoDup_cons in Hnd as [Hq Hnd].
  destruct i as [|i]; simpl in Hi.
  - injection Hi as ->. unfold remove_by_id.
    rewrite filter_cons_False by tauto. by apply remove_by_id_absent.
  - unfold remove_by_id. rewrite filter_cons_True.
    + simpl. f_equal. by apply IH.
    + intros Heq. apply Hq. rewrite Heq.
      apply list_elem_of_fmap_2, list_elem_of_lookup. eauto.
Qed.

(** On a list with unique ids, a successful delete of the id of the entry
    at position [i] removes that position and nothing else: the list gets
    shorter by exactly one. *)
Theorem delete_present_removes_one (i : nat) (post : Post)
    (res : list Post) (s : State) :
  unique_ids (data s) →
  data s !! i = Some post →
  data (run_delete (id post) (fulfilled res) s) = delete i (data s)
  ∧ S (length (data (run_delete (id post) (fulfilled res) s)))
    = length (data s).
Proof.
  intros Hnd Hi.
  assert (data (run_delete (id post) (fulfilled res) s) = delete i (data s))
    as Heq by (by apply remove_by_id_delete).
  split; [done|]. rewrite Heq, length_delete by eauto.
  apply lookup_lt_Some in Hi. lia.
Qed.

Lemma delete_present_removes_one_scenarioC :
  data (run_delete (id post2) (fulfilled []) scenarioC)
  = delete 1%nat (data scenarioC)
  ∧ S (length (data (run_delete (id post2) (fulfilled []) scenarioC)))
    = length (data scenarioC).
Proof.
  apply (delete_present_removes_one 1 post2 [] scenarioC).
  - apply (bool_decide_unpack _). vm_compute. exact I.
  - reflexivity.
Defined.

Lemma updatedPost_prefilled (post : Post) :
  updatedPost post (prefilled post) = post.
Proof. by destruct post. Qed.

Lemma replace_by_id_self (posts : list Post) (post : Post) :
  unique_ids posts → post ∈ posts → replace_by_id post post posts = posts.
Proof.
  intros Hnd Hin. apply list_elem_of_lookup in Hin as [i Hi].
  rewrite (replace_by_id_insert post post posts i post) by done.
  by apply list_insert_id.
Qed.

(** Opening the edit modal on a row and submitting the form as it was
    pre-filled leaves the posts list as it was, when the ids are unique. *)
Theorem edit_unchanged_keeps_posts (post : Post) (res : list Post)
    (s : State) :
  unique_ids (data s) →
  post ∈ data s →
  editForm (handleEdit post s) = Some (prefilled post)
  ∧ data (run_update (prefilled post) (fulfilled res) (handleEdit post s))
    = data s.
Proof.
  intros Hnd Hin. split; [done|].
  unfold run_update, handleUpdate. simpl.
  rewrite updatedPost_prefilled. by apply replace_by_id_self.
Qed.

Lemma edit_unchanged_keeps_posts_scenarioB :
  editForm (handleEdit post3 scenarioB) = Some (prefilled post3)
  ∧ data (run_update (prefilled post3) (fulfilled [])
            (handleEdit post3 scenarioB))
    = data scenarioB.
Proof.
  apply (edit_unchanged_keeps_posts post3 [] scenarioB).
  - apply (bool_decide_unpack _). vm_compute. exact I.
  - apply list_elem_of_lookup. exists 1%nat. reflexivity.
Defined.

(** ** Requests that overlap: the order of settlement *)

Lemma remove_replace_commute (k : Z) (editing updated : Post)
    (posts : list Post) :
  id updated = id editing →
  remove_by_id k (replace_by_id editing updated posts)
  = replace_by_id editing updated (remove_by_id k posts).
Proof.
  intros Hid. unfold remove_by_id, replace_by_id.
  induction posts as [|q posts IH]; [done|].
  rewrite fmap_cons, !filter_cons, IH.
  destruct (decide (id q = id editing)) as [Hq|Hq].
  - destruct (decide (id q ≠ k)) as [Hk|Hk].
    + rewrite decide_True by lia.
      rewrite fmap_cons. by rewrite decide_True.
    + by rewrite decide_False by lia.
  - destruct (decide (id q ≠ k)) as [Hk|Hk]; [|done].
    rewrite fmap_cons. by rewrite decide_False.
Qed.

(** An update and a delete that are in flight together give the same
    posts list, [loading], modal flag and [editingPost] whichever request
    is fulfilled first, also when both address the same id. *)
Theorem update_delete_any_order (values : Values.t) (editing : Post) (k : Z)
    (res res' : list Post) (s0 s : State) :
  editingPost s0 = Some editing →
  ∃ put,
    (handleUpdate values s0).2 = Some put
    ∧ let del := (handleDelete k s0).2 in
      data (on_then del res' (on_then put res s))
      = data (on_then put res (on_then del res' s))
      ∧ loading (on_then del res' (on_then put res s))
        = loading (on_then put res (on_then del res' s))
      ∧ isEditModalVisible (on_then del res' (on_then put res s))
        = isEditModalVisible (on_then put res (on_then del res' s))
      ∧ editingPost (on_then del res' (on_then put res s))
        = editingPost (on_then put res (on_then del res' s)).
Proof.
  intros Hed. unfold handleUpdate. rewrite Hed.
  eexists. split; [done|]. simpl. split_and!; [|done..].
  by apply remove_replace_commute.
Qed.

Lemma update_delete_any_order_scenarioC :
  ∃ put,
    (handleUpdate (Values.mk "new" "y") scenarioC).2 = Some put
    ∧ let del := (handleDelete 2 scenarioC).2 in
      data (on_then del [] (on_then put [] scenarioC))
      = data (on_then put [] (on_then del [] scenarioC))
      ∧ loading (on_then del [] (on_then put [] scenarioC))
        = loading (on_then put [] (on_then del [] scenarioC))
      ∧ isEditModalVisible (on_then del [] (on_then put [] scenarioC))
        = isEditModalVisible (on_then put [] (on_then del [] scenarioC))
      ∧ editingPost (on_then del [] (on_then put [] scenarioC))
        = editingPost (on_then put [] (on_then del [] scenarioC)).
Proof.
  apply (update_delete_any_order (Values.mk "new" "y") post2 2 [] []
           scenarioC scenarioC).
  reflexivity.
Defined.

Lemma remove_by_id_commute (j k : Z) (posts : list Post) :
  remove_by_id j (remove_by_id k posts) = remove_by_id k (remove_by_id j posts).
Proof.
  unfold remove_by_id. rewrite !list_filter_filter.
  apply list_filter_iff. tauto.
Qed.

Lemma remove_by_id_idemp (k : Z) (posts : list Post) :
  remove_by_id k (remove_by_id k posts) = remove_by_id k posts.
Proof.
  unfold remove_by_id. rewrite list_filter_filter.
  apply list_filter_iff. tauto.
Qed.

(** Two deletes in flight together give the same posts list whichever is
    fulfilled first, and a second delete of the same id changes the posts
    list no further. *)
Theorem deletes_any_order (j k : Z) (res res' : list Post) (s : State) :
  data (on_then (axios_delete j) res (on_then (axios_delete k) res' s))
  = data (on_then (axios_delete k) res' (on_then (axios_delete j) res s))
  ∧ data (on_then (axios_delete k) res (on_then (axios_delete k) res' s))
    = data (on_then (axios_delete k) res' s).
Proof.
  split; [apply remove_by_id_commute|apply remove_by_id_idemp].
Qed.

Lemma replace_by_id_twice (editing updated1 updated2 : Post)
    (posts : list Post) :
  id updated1 = id editing →
  replace_by_id editing updated2 (replace_by_id editing updated1 posts)
  = replace_by_id editing updated2 posts.
Proof.
  intros Hid. unfold replace_by_id. rewrite <-list_fmap_compose.
  apply list_fmap_ext. intros _ q _. simpl.
  destruct (decide (id q = id editing)) as [Hq|Hq];
    repeat case_decide; first [done | lia].
Qed.

Lemma replace_by_id_commute (editing1 updated1 editing2 updated2 : Post)
    (posts : list Post) :
  id updated1 = id editing1 → id updated2 = id editing2 →
  id editing1 ≠ id editing2 →
  replace_by_id editing2 updated2 (replace_by_id editing1 updated1 posts)
  = replace_by_id editing1 updated1 (replace_by_id editing2 updated2 posts).
Proof.
  intros Hid1 Hid2 Hne. unfold replace_by_id. rewrite <-!list_fmap_compose.
  apply list_fmap_ext. intros _ q _. simpl.
  destruct (decide (id q = id editing1)) as [Hq1|Hq1];
    destruct (decide (id q = id editing2)) as [Hq2|Hq2];
    repeat case_decide; first [done | lia].
Qed.

(** Two updates of posts with different ids that are in flight together
    give the same posts list whichever is fulfilled first. *)
Theorem updates_distinct_any_order (values1 values2 : Values.t)
    (editing1 editing2 : Post) (res res' : list Post) (s : State) :
  id editing1 ≠ id editing2 →
  data (on_then (axios_put editing2 (updatedPost editing2 values2)) res'
          (on_then (axios_put editing1 (updatedPost editing1 values1)) res s))
  = data (on_then (axios_put editing1 (updatedPost editing1 values1)) res
            (on_then (axios_put editing2 (updatedPost editing2 values2)) res'
               s)).
Proof. intros Hne. by apply replace_by_id_commute. Qed.

Lemma updates_distinct_any_order_scenarioC :
  data (on_then (axios_put post3 (updatedPost post3 (Values.mk "t" "b"))) []
          (on_then (axios_put post2 (updatedPost post2 (Values.mk "new" "y")))
             [] scenarioC))
  = data (on_then (axios_put post2 (updatedPost post2 (Values.mk "new" "y")))
            []
            (on_then (axios_put post3 (updatedPost post3 (Values.mk "t" "b")))
               [] scenarioC)).
Proof.
  apply (updates_distinct_any_order (Values.mk "new" "y") (Values.mk "t" "b")
           post2 post3 [] [] scenarioC).
  vm_compute. discriminate.
Defined.

(** Two updates of the same id that are in flight together (the edit form
    submitted twice): the posts list is the one the update fulfilled last
    gives on its own, and the other one leaves no trace. *)
Theorem update_same_id_last_wins (values1 values2 : Values.t)
    (editing1 editing2 : Post) (res res' : list Post) (s : State) :
  id editing1 = id editing2 →
  data (on_then (axios_put editing2 (updatedPost editing2 values2)) res'
          (on_then (axios_put editing1 (updatedPost editing1 values1)) res s))
  = data (on_then (axios_put editing2 (updatedPost editing2 values2)) res' s).
Proof.
  intros Heq. simpl.
  rewrite <-(replace_by_id_twice editing2 (updatedPost editing1 values1)
               (updatedPost editing2 values2) (data s)) by done.
  f_equal. unfold replace_by_id. apply list_fmap_ext.
  intros _ q _. simpl. by rewrite Heq.
Qed.

Lemma update_same_id_last_wins_scenarioC :
  data (on_then (axios_put post2 (updatedPost post2 (Values.mk "t" "b"))) []
          (on_then (axios_put post2 (updatedPost post2 (Values.mk "new" "y")))
             [] scenarioC))
  = data (on_then (axios_put post2 (updatedPost post2 (Values.mk "t" "b"))) []
            scenarioC).
Proof.
  apply (update_same_id_last_wins (Values.mk "new" "y") (Values.mk "t" "b")
           post2 post2 [] [] scenarioC).
  reflexivity.
Defined.

(** ** What holds in every reachable state *)

Lemma reachable_fetchedB : reachable fetchedB.
Proof.
  apply rtc_once.
  apply (step_fulfilled 0 axios_get [post1; post3] (state mounted)
           (inflight mounted)); [done|].
  intros _. apply (bool_decide_unpack _). vm_compute. exact I.
Qed.

Lemma reachable_editingB : reachable editingB.
Proof.
  eapply rtc_r; [apply reachable_fetchedB|].
  apply (step_edit post1 (state fetchedB) []).
  apply list_elem_of_here.
Qed.

Lemma handleUpdate_state (values : Values.t) (s : State) :
  (handleUpdate values s).1 = s.
Proof. unfold handleUpdate. by destruct (editingPost s). Qed.

Lemma modal_step (c c' : Component) :
  step c c' →
  (isEditModalVisible (state c) = true → is_Some (editingPost (state c))) →
  isEditModalVisible (state c') = true → is_Some (editingPost (state c')).
Proof.
  intros Hstep IH.
  destruct Hstep as [values s ps|post s ps Hin|s ps|values s ps|post s ps Hin
                    |i p res_data s ps Hi Hres|i p s ps Hi];
    simpl in *; intros Hvis.
  - rewrite onFinish_state in *. by apply IH.
  - by eexists.
  - done.
  - rewrite handleUpdate_state in *. by apply IH.
  - by apply IH.
  - destruct p; simpl in *; by try apply IH.
  - destruct p; simpl in *; by apply IH.
Qed.

(** Whenever the edit modal is visible there is a post under edit, so a
    submit of the edit form never takes the early return of
    [handleUpdate]: it issues the update of that post. *)
Theorem modal_visible_submits (values : Values.t) (c : Component) :
  reachable c →
  isEditModalVisible (state c) = true →
  ∃ editing,
    editingPost (state c) = Some editing
    ∧ (handleUpdate values (state c)).2
      = Some (axios_put editing (updatedPost editing values)).
Proof.
  intros Hreach Hvis.
  assert (is_Some (editingPost (state c))) as [editing Hed].
  { revert c Hreach Hvis.
    apply (rtc_ind_r
             (λ c, isEditModalVisible (state c) = true
                   → is_Some (editingPost (state c))) mounted); [done|].
    intros c c' _ Hstep IH. by apply (modal_step c c'). }
  exists editing. split; [done|]. unfold handleUpdate. by rewrite Hed.
Qed.

Lemma Exists_delete_other {A} (P : A → Prop) (l : list A) (i : nat) (x : A) :
  l !! i = Some x → ¬ P x → Exists P l → Exists P (delete i l).
Proof.
  intros Hi Hx Hex. revert i Hi.
  induction Hex as [y l Hy|y l Hex IH]; intros [|i] Hi; simpl in *.
  - injection Hi as ->. done.
  - by apply Exists_cons_hd.
  - done.
  - apply Exists_cons_tl. by apply IH.
Qed.

Lemma loading_step (c c' : Component) :
  step_while spreadable c c' →
  (loading (state c) = true →
   Exists (λ p, tracks_loading p = true) (inflight c)) →
  loading (state c') = true →
  Exists (λ p, tracks_loading p = true) (inflight c').
Proof.
  intros [Hlen Hstep] IH.
  destruct Hstep as [values s ps|post s ps Hin|s ps|values s ps|post s ps Hin
                    |i p res_data s ps Hi Hres|i p s ps Hi];
    simpl in *; intros Hl.
  - destruct (onFinish_issues values s Hlen) as (m & _ & ->). simpl.
    apply Exists_app. right. by constructor.
  - by apply IH.
  - by apply IH.
  - rewrite handleUpdate_state in Hl. apply Exists_app. left. by apply IH.
  - apply Exists_app. right. by constructor.
  - destruct p; try done.
    eapply Exists_delete_other; [done| |by apply IH]. done.
  - destruct p; try done.
    eapply Exists_delete_other; [done| |by apply IH]. done.
Qed.

(** As long as the posts list can be spread into the arguments of a call,
    [loading] is never left on: whenever it is [true], one of the requests
    that clear it when they settle (fetch, create, delete) is in flight. *)
Theorem loading_has_request (c : Component) :
  reachable_while spreadable c →
  loading (state c) = true →
  Exists (λ p, tracks_loading p = true) (inflight c).
Proof.
  revert c.
  apply (rtc_ind_r
           (λ c, loading (state c) = true
                 → Exists (λ p, tracks_loading p = true) (inflight c))
           mounted).
  - intros _. by constructor.
  - intros c c' _ Hstep IH. by apply (loading_step c c').
Qed.

(** A create on a list too long to be spread sets [loading] and then
    throws: no request is issued, the posts and everything else stay, and
    nothing that is in flight because of it will clear [loading]. *)
Theorem onFinish_throws (values : Values.t) (s : State) :
  data s ≠ [] →
  max_arguments < Z.of_nat (length (data s)) →
  onFinish values s = (setLoading true s, None)
  ∧ ∀ r, run_create values r s = setLoading true s.
Proof.
  intros Hne Hlen.
  assert (maxId (data s) = throws_RangeError) as Hm
    by (by apply maxId_throws).
  unfold run_create, onFinish. by rewrite Hm.
Qed.

(** Only a fulfilled update clears [editingPost]: a step that takes the
    component from a state with a post under edit to one without is the
    [.then] callback of a [put] in flight.  Dismissing the modal, a rejected
    update and every other event keep a post under edit. *)
Theorem editingPost_cleared_by_update (c c' : Component) :
  step c c' →
  is_Some (editingPost (state c)) →
  editingPost (state c') = None →
  ∃ i editing updated res_data,
    inflight c !! i = Some (axios_put editing updated)
    ∧ state c' = on_then (axios_put editing updated) res_data (state c)
    ∧ inflight c' = delete i (inflight c).
Proof.
  intros Hstep [e He] Hnone.
  destruct Hstep as [values s ps|post s ps Hin|s ps|values s ps|post s ps Hin
                    |i p res_data s ps Hi Hres|i p s ps Hi];
    simpl in *; try congruence.
  - rewrite onFinish_state in Hnone. simpl in Hnone. congruence.
  - rewrite handleUpdate_state in Hnone. congruence.
  - destruct p as [|d new|editing updated|k]; simpl in *; try congruence.
    by exists i, editing, updated, res_data.
  - destruct p; simpl in *; congruence.
Qed.

(** ** The create form *)

(** A successful create resets the fields of the create form to their
    initial values, whatever was typed meanwhile; a failed create leaves
    them as they are, so the data stays for a retry.  Neither touches the
    edit form, the modal or the post under edit. *)
Theorem create_form_fields (values : Values.t) (res : list Post) (s : State)
    (data0 : list Post) (new : Post) :
  (form (settle (axios_post data0 new) (fulfilled res) s) = form initialState
   ∧ form (settle (axios_post data0 new) rejected s) = form s
   ∧ form (run_create values rejected s) = form s)
  ∧ (∀ r, editForm (run_create values r s) = editForm s
          ∧ isEditModalVisible (run_create values r s) = isEditModalVisible s
          ∧ editingPost (run_create values r s) = editingPost s).
Proof.
  unfold run_create, onFinish.
  destruct (maxId (data s)); split_and!; try done; by intros [].
Qed.

End engine.

(** * Concrete runs

    The theorems above at the sample states, on an engine that takes
    [sample_limit] arguments. *)

Example scenarioB_create :
  data (run_create sample_limit (Values.mk "t" "b") (fulfilled []) scenarioB)
  = [post1; post3; mkPost 1 4 "t" "b"].
Proof. reflexivity. Qed.

Lemma scenarioB_in_range :
  spreadable sample_limit scenarioB ∧ safe_ids scenarioB.
Proof.
  split.
  - by vm_compute.
  - apply (bool_decide_unpack _). vm_compute. exact I.
Qed.

Lemma onFinish_synthetic_id_scenarioB :
  ∃ new,
    (onFinish sample_limit (Values.mk "t" "b") scenarioB).2
    = Some (axios_post (data scenarioB) new)
    ∧ (data scenarioB ≠ [] →
       ∃ m, m ∈ id <$> data scenarioB
            ∧ Forall (λ x, x ≤ m) (id <$> data scenarioB)
            ∧ id new = 1 + m)
    ∧ (data scenarioB = [] → id new = 1).
Proof.
  apply (onFinish_synthetic_id sample_limit (Values.mk "t" "b") scenarioB).
  - by vm_compute.
  - apply (bool_decide_unpack _). vm_compute. exact I.
Defined.

(** C1, as stated, fails past the safe range: on the list whose one id is
    [2^53], [onFinish] submits a post with id [2^53] again, which is not
    [1 + max]. *)
Lemma synthetic_id_beyond_safe_range :
  ∃ new,
    (onFinish sample_limit (Values.mk "t" "b") beyond_safe).2
    = Some (axios_post (data beyond_safe) new)
    ∧ id new = 2 ^ 53
    ∧ ¬ ∃ m, m ∈ id <$> data beyond_safe
             ∧ Forall (λ x, x ≤ m) (id <$> data beyond_safe)
             ∧ id new = 1 + m.
Proof.
  exists (mkPost 1 (2 ^ 53) "t" "b"). split_and!; [reflexivity..|].
  intros (m & Hin & _ & Heq).
  apply list_elem_of_singleton in Hin as ->.
  vm_compute in Heq. discriminate Heq.
Qed.

Lemma unique_ids_preserved_scenarioC :
  unique_ids (data scenarioC)
  ∧ safe_ids scenarioC
  ∧ unique_ids
      (data (run_create sample_limit (Values.mk "new" "y") (fulfilled [])
               scenarioC))
  ∧ unique_ids (data (run_update (Values.mk "new" "y") (fulfilled []) scenarioC))
  ∧ unique_ids (data (run_delete 2 (fulfilled []) scenarioC)).
Proof.
  assert (unique_ids (data scenarioC)) as Hnd.
  { apply (bool_decide_unpack _). vm_compute. exact I. }
  assert (safe_ids scenarioC) as Hsafe.
  { apply (bool_decide_unpack _). vm_compute. exact I. }
  destruct (unique_ids_preserved sample_limit (Values.mk "new" "y") 2 []
              scenarioC Hnd) as (Hcreate & Hupdate & Hdelete).
  split_and!; [exact Hnd|exact Hsafe|exact (Hcreate Hsafe)|exact Hupdate
              |exact Hdelete].
Defined.

(** C2, as stated, fails past the safe range: the list whose one id is
    [2^53] has unique ids, and a successful create makes it a list with
    that id twice. *)
Lemma create_duplicates_id_beyond_safe_range :
  unique_ids (data beyond_safe)
  ∧ id <$> data (run_create sample_limit (Values.mk "t" "b") (fulfilled [])
                   beyond_safe)
    = [2 ^ 53; 2 ^ 53]
  ∧ ¬ unique_ids
        (data (run_create sample_limit (Values.mk "t" "b") (fulfilled [])
                 beyond_safe)).
Proof.
  split_and!.
  - apply (bool_decide_unpack _). vm_compute. exact I.
  - reflexivity.
  - apply (bool_decide_unpack _). vm_compute. exact I.
Qed.

(** C6 at an input the code can meet.  The edit form of scenario C is
    submitted, the modal is dismissed and the create form is submitted
    while the update is in flight.  The update is fulfilled first: the
    posts list holds the new title.  Then the create is fulfilled: the
    posts list is the list captured at submit plus the new post, so it is
    not the list as it was plus one entry, and the update is gone. *)
Theorem update_then_create_lost :
  ∃ s put post,
    update_then_create sample_limit = (s, Some put, Some post)
    ∧ data (on_then put [] s) = [post1; mkPost 7 2 "new" "y"; post3]
    ∧ data (on_then post [] (on_then put [] s))
      = [post1; post2; post3; mkPost 1 4 "t" "b"]
    ∧ data (on_then post [] (on_then put [] s))
      ≠ data (on_then put [] s) ++ [mkPost 1 4 "t" "b"].
Proof. eexists _, _, _. by split_and!. Qed.

Lemma reachable_unique_ids_fetchedB : unique_ids (data (state fetchedB)).
Proof.
  apply (reachable_unique_ids sample_limit fetchedB).
  apply rtc_once. split.
  - apply (bool_decide_unpack _). vm_compute. exact I.
  - apply (step_fulfilled sample_limit 0 axios_get [post1; post3]
             (state mounted) (inflight mounted)).
    + reflexivity.
    + intros _. apply (bool_decide_unpack _). vm_compute. exact I.
Defined.

Lemma create_writes_captured_list_scenarioC :
  ∃ m, maxId sample_limit (data scenarioC) = returns m
       ∧ axios_post (data scenarioC) (mkPost 1 4 "t" "b")
         = axios_post (data scenarioC) (newPost (Values.mk "t" "b") m)
       ∧ data (on_then (axios_post (data scenarioC) (mkPost 1 4 "t" "b")) []
                 scenarioB)
         = data scenarioC ++ [newPost (Values.mk "t" "b") m].
Proof.
  apply (create_writes_captured_list sample_limit (Values.mk "t" "b") []
           scenarioC scenarioB).
  reflexivity.
Defined.

Lemma consecutive_creates_scenarioB :
  ∃ new1 new2,
    (onFinish sample_limit (Values.mk "t" "b") scenarioB).2
    = Some (axios_post (data scenarioB) new1)
    ∧ (onFinish sample_limit (Values.mk "u" "c")
         (run_create sample_limit (Values.mk "t" "b") (fulfilled [])
            scenarioB)).2
      = Some (axios_post (data scenarioB ++ [new1]) new2)
    ∧ id new2 = id new1 + 1.
Proof.
  apply (consecutive_creates sample_limit (Values.mk "t" "b")
           (Values.mk "u" "c") [] scenarioB).
  - by vm_compute.
  - apply (bool_decide_unpack _). vm_compute. exact I.
  - apply (bool_decide_unpack _). vm_compute. exact I.
Defined.

Lemma create_then_delete_scenarioB :
  ∃ new new',
    (onFinish sample_limit (Values.mk "t" "b") scenarioB).2
    = Some (axios_post (data scenarioB) new)
    ∧ data (run_delete (id new) (fulfilled [])
              (run_create sample_limit (Values.mk "t" "b") (fulfilled [])
                 scenarioB))
      = data scenarioB
    ∧ (onFinish sample_limit (Values.mk "u" "c")
         (run_delete (id new) (fulfilled [])
            (run_create sample_limit (Values.mk "t" "b") (fulfilled [])
               scenarioB))).2
      = Some (axios_post (data scenarioB) new')
    ∧ id new' = id new.
Proof.
  apply (create_then_delete sample_limit (Values.mk "t" "b")
           (Values.mk "u" "c") [] [] scenarioB).
  - by vm_compute.
  - apply (bool_decide_unpack _). vm_compute. exact I.
Defined.

Lemma modal_visible_submits_editingB :
  ∃ editing,
    editingPost (state editingB) = Some editing
    ∧ (handleUpdate (Values.mk "t" "b") (state editingB)).2
      = Some (axios_put editing (updatedPost editing (Values.mk "t" "b"))).
Proof.
  apply (modal_visible_submits sample_limit (Values.mk "t" "b") editingB).
  - apply reachable_editingB.
  - reflexivity.
Defined.

Lemma loading_has_request_mounted :
  Exists (λ p, tracks_loading p = true) (inflight mounted).
Proof.
  apply (loading_has_request sample_limit mounted).
  - apply rtc_refl.
  - reflexivity.
Defined.

Lemma onFinish_throws_scenarioB :
  onFinish small_limit (Values.mk "t" "b") scenarioB
  = (setLoading true scenarioB, None)
  ∧ ∀ r, run_create small_limit (Values.mk "t" "b") r scenarioB
         = setLoading true scenarioB.
Proof.
  apply (onFinish_throws small_limit (Values.mk "t" "b") scenarioB).
  - discriminate.
  - by vm_compute.
Defined.

Lemma editingPost_cleared_by_update_updatingC :
  ∃ i editing updated res_data,
    inflight updatingC !! i = Some (axios_put editing updated)
    ∧ on_then (axios_put post2 (updatedPost post2 (Values.mk "new" "y"))) []
        (state updatingC)
      = on_then (axios_put editing updated) res_data (state updatingC)
    ∧ delete 0%nat (inflight updatingC) = delete i (inflight updatingC).
Proof.
  apply (editingPost_cleared_by_update sample_limit updatingC
           (mkComponent
              (on_then
                 (axios_put post2 (updatedPost post2 (Values.mk "new" "y")))
                 [] (state updatingC))
              (delete 0%nat (inflight updatingC)))).
  - apply (step_fulfilled sample_limit 0
             (axios_put post2 (updatedPost post2 (Values.mk "new" "y"))) []
             (state updatingC) (inflight updatingC)); [reflexivity|].
    intros Hget. discriminate Hget.
  - exists post2. reflexivity.
  - reflexivity.
Defined.
